(** * Two Sum (cpp/0001.two-sum/main.cpp)

    A shallow embedding of [Solution::twoSum] (brute force) and
    [Solution::twoSum2] (ordered-map lookup), and the properties of the
    pair finder they implement.

    Conventions of the embedding.
    - A C++ [int] is a [Z] in the 32-bit two's-complement range; [+], [-] and
      [++] on [int] are written with their wrap-around ([Int.add], [Int.sub]),
      the behaviour of two's-complement targets where the standard leaves
      signed overflow undefined.  The theorems assume [size() <= INT_MAX], so
      that the counters never reach it.
    - A [size_t] is a [Z] in the 64-bit unsigned range; the conversion of an
      [int] operand in a mixed comparison and the unsigned subtraction are
      written with their wrap-around ([SizeT.of_int], [SizeT.sub]).
    - [std::vector<int>& nums] is the mutable state of a small state and error
      monad [M]; the state is a [list Z].  [nums[i]] is a read that fails with
      [OutOfBounds] past the end of the vector.
    - [std::map<int, int>] is a [gmap Z Z].
    - The two [for] loops are written with the guards and increments of the
      source and take an iteration budget; the functions pass a budget of
      [size + 1], which the theorems show is never exhausted. *)

From Stdlib Require Import ZArith List Lia.
From stdpp Require Import base gmap list strings.
Import ListNotations.

Local Open Scope Z_scope.

(** ** Machine integers *)

Module Int.
Definition min : Z := - 2 ^ 31.
Definition max : Z := 2 ^ 31 - 1.

Definition in_range (z : Z) : Prop := min <= z <= max.

(** Reduction of a mathematical integer to its 32-bit two's-complement
    representative. *)
Definition wrap (z : Z) : Z := (z + 2 ^ 31) mod 2 ^ 32 - 2 ^ 31.

Definition add (a b : Z) : Z := wrap (a + b).
Definition sub (a b : Z) : Z := wrap (a - b).
End Int.

Module SizeT.
Definition modulus : Z := 2 ^ 64.

(** The usual arithmetic conversion of an [int] compared with a [size_t]. *)
Definition of_int (i : Z) : Z := i mod modulus.

Definition sub (a b : Z) : Z := (a - b) mod modulus.
End SizeT.

(** ** The state and error monad *)

Inductive error : Type :=
| OutOfBounds   (* operator[] past the end of the vector *)
| OutOfFuel.    (* iteration budget of the embedding exhausted *)

Inductive result (A : Type) : Type :=
| Ok (a : A)
| Fault (e : error).

Arguments Ok {A} a.
Arguments Fault {A} e.

(** A computation over the vector [nums]. *)
Definition M (A : Type) : Type := list Z -> result A * list Z.

Definition ret {A : Type} (a : A) : M A := fun nums => (Ok a, nums).

Definition fail {A : Type} (e : error) : M A := fun nums => (Fault e, nums).

Definition bind {A B : Type} (m : M A) (f : A -> M B) : M B :=
  fun nums =>
    match m nums with
    | (Ok a, nums') => f a nums'
    | (Fault e, nums') => (Fault e, nums')
    end.

Notation "'let*' x ':=' m 'in' f" := (bind m (fun x => f))
  (at level 10, x name, m at level 100, f at level 200).

(** The number of elements of the vector, as a mathematical integer. *)
Definition size (nums : list Z) : Z := Z.of_nat (length nums).

(** [nums.size()] *)
Definition vec_size : M Z := fun nums => (Ok (size nums), nums).

(** [nums[i]] with [i] an [int]: the index is converted to [size_type]. *)
Definition vec_at (i : Z) : M Z :=
  fun nums =>
    match nums !! Z.to_nat (SizeT.of_int i) with
    | Some x => (Ok x, nums)
    | None => (Fault OutOfBounds, nums)
    end.

(** ** std::map<int, int> *)

(** [cache.emplace(k, v)]: inserts only when the key is absent. *)
Definition emplace (k v : Z) (cache : gmap Z Z) : gmap Z Z :=
  match cache !! k with
  | Some _ => cache
  | None => <[k := v]> cache
  end.

(** ** class Solution *)

(** How a loop ends: it runs to its end, or a [return] inside it is taken. *)
Inductive flow : Type :=
| Fallthrough
| Returned (v : list Z).

Module Solution.

(** [for (int j = ...; j < nums.size(); ++j)
      if (nums[i] + nums[j] == target) return {i, j};] *)
Fixpoint twoSum_inner (fuel : nat) (target i j : Z) : M flow :=
  match fuel with
  | O => fail OutOfFuel
  | S fuel' =>
      let* n := vec_size in
      if SizeT.of_int j <? n then
        let* a := vec_at i in
        let* b := vec_at j in
        if Int.add a b =? target then ret (Returned [i; j])
        else twoSum_inner fuel' target i (Int.add j 1)
      else ret Fallthrough
  end.

(** [for (int i = ...; i < nums.size() - 1; ++i)
      for (int j = i + 1; ...) ...] *)
Fixpoint twoSum_outer (budget fuel : nat) (target i : Z) : M flow :=
  match fuel with
  | O => fail OutOfFuel
  | S fuel' =>
      let* n := vec_size in
      if SizeT.of_int i <? SizeT.sub n 1 then
        let* r := twoSum_inner budget target i (Int.add i 1) in
        match r with
        | Returned v => ret (Returned v)
        | Fallthrough => twoSum_outer budget fuel' target (Int.add i 1)
        end
      else ret Fallthrough
  end.

Definition twoSum (target : Z) : M (list Z) :=
  let* n := vec_size in
  if n <? 2 then ret []
  else
    let budget := S (Z.to_nat n) in
    let* r := twoSum_outer budget budget target 0 in
    match r with
    | Returned v => ret v
    | Fallthrough => ret []
    end.

(** [for (int i = ...; i < nums.size(); ++i) { ... }] of [twoSum2]. *)
Fixpoint twoSum2_loop (fuel : nat) (target : Z) (cache : gmap Z Z) (i : Z)
  : M flow :=
  match fuel with
  | O => fail OutOfFuel
  | S fuel' =>
      let* n := vec_size in
      if SizeT.of_int i <? n then
        let* num := vec_at i in
        match cache !! Int.sub target num with
        | Some k => ret (Returned [k; i])
        | None => twoSum2_loop fuel' target (emplace num i cache) (Int.add i 1)
        end
      else ret Fallthrough
  end.

Definition twoSum2 (target : Z) : M (list Z) :=
  let* n := vec_size in
  if n <? 2 then ret []
  else
    let* r := twoSum2_loop (S (Z.to_nat n)) target ∅ 0 in
    match r with
    | Returned v => ret v
    | Fallthrough => ret []
    end.

End Solution.

Import Solution.

(** ** The test driver *)

(** One block of [checkSolution]: call [twoSum2], then
    [assert(result[0] == r0 && result[1] == r1)]. *)
Definition check_block (nums : list Z) (target r0 r1 : Z) : bool :=
  match twoSum2 target nums with
  | (Ok result, _) =>
      match result !! 0%nat, result !! 1%nat with
      | Some x, Some y => (x =? r0) && (y =? r1)
      | _, _ => false
      end
  | (Fault _, _) => false
  end.

Definition checkSolution : bool :=
  check_block [2; 7; 11; 15] 9 0 1 &&
  check_block [3; 2; 4] 6 1 2 &&
  check_block [3; 3] 6 0 1.

(** ** Well-formed inputs *)

(** A [std::vector<int>] whose size an [int] counter can hold: the elements
    are [int]s and [size() <= INT_MAX]. *)
Definition wf_vector (nums : list Z) : Prop :=
  Forall Int.in_range nums /\ size nums <= Int.max.

(** ** What the pair finder is specified to find *)

(** Positions [i] and [j] hold values whose [int] sum is [target]. *)
Definition sums_to (nums : list Z) (target i j : Z) : Prop :=
  exists a b,
    nums !! Z.to_nat i = Some a /\ nums !! Z.to_nat j = Some b /\
    Int.add a b = target.

(** An answer: two positions in bounds, in increasing order. *)
Definition valid_pair (nums : list Z) (target i j : Z) : Prop :=
  0 <= i < j /\ j < size nums /\ sums_to nums target i j.

(** The first valid pair in row-major (lexicographic) order. *)
Definition first_pair (nums : list Z) (target i j : Z) : Prop :=
  valid_pair nums target i j /\
  forall a b, valid_pair nums target a b -> i < a \/ (i = a /\ j <= b).

(** The valid pair completed earliest in a left-to-right scan: smallest
    second position, then smallest first position. *)
Definition indexed_pair (nums : list Z) (target i j : Z) : Prop :=
  valid_pair nums target i j /\
  forall a b, valid_pair nums target a b -> j < b \/ (j = b /\ i <= a).

(** [k] is the first position before [i] that holds [v]. *)
Definition first_index (nums : list Z) (i v k : Z) : Prop :=
  0 <= k < i /\ nums !! Z.to_nat k = Some v /\
  forall k', 0 <= k' < k -> nums !! Z.to_nat k' <> Some v.

(** Invariant of the scratch map at the head of iteration [i]: its keys are
    the values at the positions before [i], each bound to the first position
    that holds it. *)
Definition cache_inv (nums : list Z) (i : Z) (cache : gmap Z Z) : Prop :=
  (forall v k, cache !! v = Some k -> first_index nums i v k) /\
  (forall v, cache !! v = None ->
             forall k, 0 <= k < i -> nums !! Z.to_nat k <> Some v).

(** Some two distinct positions hold values that sum to the target. *)
Definition has_solution (nums : list Z) (target : Z) : Prop :=
  exists i j,
    i <> j /\ 0 <= i < size nums /\ 0 <= j < size nums /\
    sums_to nums target i j.

(** ** Postconditions of the loops and of the operations *)

(** What the inner loop started at [j] leaves behind. *)
Definition inner_post (nums : list Z) (target i j : Z) (r : flow) : Prop :=
  match r with
  | Returned v =>
      exists j', v = [i; j'] /\ j <= j' < size nums /\
        sums_to nums target i j' /\
        forall k, j <= k < j' -> ~ sums_to nums target i k
  | Fallthrough => forall k, j <= k < size nums -> ~ sums_to nums target i k
  end.

(** What the outer loop started at [i] leaves behind. *)
Definition outer_post (nums : list Z) (target i : Z) (r : flow) : Prop :=
  match r with
  | Returned v =>
      exists i' j', v = [i'; j'] /\ i <= i' /\
        valid_pair nums target i' j' /\
        forall a b, i <= a -> valid_pair nums target a b ->
                    i' < a \/ (i' = a /\ j' <= b)
  | Fallthrough => forall a b, i <= a -> ~ valid_pair nums target a b
  end.

(** The whole of [twoSum]: no fault, the vector untouched, and either no
    valid pair and the empty result, or the first valid pair. *)
Definition twoSum_post (nums : list Z) (target : Z) (v : list Z) : Prop :=
  (v = [] /\ forall a b, ~ valid_pair nums target a b) \/
  (exists i j, v = [i; j] /\ first_pair nums target i j).

(** What the loop started at [i] leaves behind. *)
Definition loop_post (nums : list Z) (target i : Z) (r : flow) : Prop :=
  match r with
  | Returned v =>
      exists k j, v = [k; j] /\ i <= j /\
        valid_pair nums target k j /\
        (forall a, valid_pair nums target a j -> k <= a) /\
        (forall a b, i <= b < j -> ~ valid_pair nums target a b)
  | Fallthrough => forall a b, i <= b -> ~ valid_pair nums target a b
  end.

(** The whole of [twoSum2]: no fault, the vector untouched, and either no
    valid pair and the empty result, or the pair completed first. *)
Definition twoSum2_post (nums : list Z) (target : Z) (v : list Z) : Prop :=
  (v = [] /\ forall a b, ~ valid_pair nums target a b) \/
  (exists i j, v = [i; j] /\ indexed_pair nums target i j).

(** ** Frame and safety predicates *)

(** A computation that leaves the vector as it found it. *)
Definition frame {A : Type} (m : M A) : Prop :=
  forall nums, snd (m nums) = nums.

(** Two calls in a row, as a caller would make them on the same vector. *)
Definition call_twice {A : Type} (m : M A) : M (A * A) :=
  let* r1 := m in
  let* r2 := m in
  ret (r1, r2).

(** A computation that does not read past the end of the vector. *)
Definition no_oob {A : Type} (m : M A) (nums : list Z) : Prop :=
  fst (m nums) <> Fault OutOfBounds.

(** ** The operations as the specification words them *)

(** [find_pair_indexed]: for each position [i] with value [v], if the mapping
    already contains [target - v] return [(mapping[target - v], i)];
    otherwise insert [(v, i)] unless [v] is already present. *)
Fixpoint find_pair_indexed_from (target : Z) (mapping : gmap Z Z) (i : Z)
    (rest : list Z) : list Z :=
  match rest with
  | [] => []
  | v :: rest' =>
      match mapping !! Int.sub target v with
      | Some k => [k; i]
      | None =>
          let mapping' :=
            match mapping !! v with
            | Some _ => mapping
            | None => <[v := i]> mapping
            end in
          find_pair_indexed_from target mapping' (i + 1) rest'
      end
  end.

Definition find_pair_indexed (nums : list Z) (target : Z) : list Z :=
  if size nums <? 2 then [] else find_pair_indexed_from target ∅ 0 nums.

(** [find_pair_brute]: all index pairs [(i, j)] with [0 <= i < j < length] in
    row-major order, and the first of them whose values sum to [target]. *)
Definition pairs_in_row (n i : nat) : list (nat * nat) :=
  map (pair i) (seq (S i) (n - S i)).

Definition row_major_pairs (n : nat) : list (nat * nat) :=
  flat_map (pairs_in_row n) (seq 0 n).

Definition pair_sums (nums : list Z) (target : Z) (p : nat * nat) : bool :=
  match nums !! p.1, nums !! p.2 with
  | Some a, Some b => Int.add a b =? target
  | _, _ => false
  end.

Definition indices (found : option (nat * nat)) : list Z :=
  match found with
  | Some (i, j) => [Z.of_nat i; Z.of_nat j]
  | None => []
  end.

Definition find_pair_brute (nums : list Z) (target : Z) : list Z :=
  if size nums <? 2 then []
  else indices (find (pair_sums nums target) (row_major_pairs (length nums))).

(** A loop that returned nothing fell through. *)
Definition flow_of (v : list Z) : flow :=
  match v with
  | [] => Fallthrough
  | _ => Returned v
  end.

(** ** Further notions about the pair finder *)

(** Two distinct positions hold values whose sum, taken in the integers, is
    the target. *)
Definition has_exact_solution (nums : list Z) (target : Z) : Prop :=
  exists i j a b,
    i <> j /\ 0 <= i /\ 0 <= j /\
    nums !! Z.to_nat i = Some a /\ nums !! Z.to_nat j = Some b /\
    a + b = target.

(** Half the [int] range: the sum of two such values is representable. *)
Definition half_range (x : Z) : Prop := - 2 ^ 30 <= x < 2 ^ 30.

(** All index pairs [(i, j)] with [i < j < n], column by column: [j]
    ascending, then [i] ascending. *)
Definition pairs_in_column (j : nat) : list (nat * nat) :=
  map (fun i => (i, j)) (seq 0 j).

Definition column_major_pairs (n : nat) : list (nat * nat) :=
  flat_map pairs_in_column (seq 0 n).

(** The brute-force search with its two loops interchanged. *)
Definition find_pair_by_columns (nums : list Z) (target : Z) : list Z :=
  if size nums <? 2 then []
  else
    indices (find (pair_sums nums target) (column_major_pairs (length nums))).

(** ** The query on the customer table (unnamed/part_000)

    [SELECT name FROM customer WHERE referee_id != 2 OR referee_id IS NULL;]

    The declaration of the table is not part of the repository: a row has
    the two columns the query names, [referee_id] being a nullable
    integer.  Conditions are evaluated in SQL's three-valued logic and
    [WHERE] keeps the rows on which the condition is true. *)

Module Sql.

Inductive truth : Type :=
| True3
| False3
| Unknown3.

(** [a OR b] *)
Definition or3 (a b : truth) : truth :=
  match a, b with
  | True3, _ | _, True3 => True3
  | False3, False3 => False3
  | _, _ => Unknown3
  end.

(** [x != y] with [x] a nullable column and [y] a literal. *)
Definition neq3 (x : option Z) (y : Z) : truth :=
  match x with
  | None => Unknown3
  | Some v => if v =? y then False3 else True3
  end.

(** [x IS NULL] *)
Definition is_null (x : option Z) : truth :=
  match x with
  | None => True3
  | Some _ => False3
  end.

(** A condition holds on a row only when it evaluates to true. *)
Definition holds (t : truth) : bool :=
  match t with
  | True3 => true
  | _ => false
  end.

Record customer : Type := {
  name : string;
  referee_id : option Z
}.

(** [referee_id != 2 OR referee_id IS NULL] *)
Definition where_clause (c : customer) : truth :=
  or3 (neq3 (referee_id c) 2) (is_null (referee_id c)).


(** The customers referred by the customer with id 2. *)
Definition referred_by_2 (c : customer) : bool :=
  match referee_id c with
  | Some v => v =? 2
  | None => false
  end.

End Sql.

(** ** Arithmetic of the machine integers *)

Lemma wrap_in_range z : Int.in_range (Int.wrap z).
Proof.
  unfold Int.in_range, Int.wrap, Int.min, Int.max.
  pose proof (Z.mod_pos_bound (z + 2 ^ 31) (2 ^ 32)). lia.
Qed.

Lemma wrap_id z : Int.in_range z -> Int.wrap z = z.
Proof.
  unfold Int.in_range, Int.wrap, Int.min, Int.max. intros Hz.
  rewrite Z.mod_small; lia.
Qed.

Lemma wrap_wrap_add x y : Int.wrap (Int.wrap x + y) = Int.wrap (x + y).
Proof.
  unfold Int.wrap. f_equal.
  replace ((x + 2 ^ 31) mod 2 ^ 32 - 2 ^ 31 + y + 2 ^ 31)
    with ((x + 2 ^ 31) mod 2 ^ 32 + y) by lia.
  rewrite Zplus_mod_idemp_l. f_equal. lia.
Qed.

Lemma add_comm a b : Int.add a b = Int.add b a.
Proof. unfold Int.add. f_equal. lia. Qed.

Lemma add_exact a b : Int.in_range (a + b) -> Int.add a b = a + b.
Proof. apply wrap_id. Qed.

(** [a + b == target] and [a == target - b] are the same test on [int]s. *)
Lemma add_sub_iff a b target :
  Int.in_range a -> Int.in_range target ->
  Int.add a b = target <-> a = Int.sub target b.
Proof.
  intros Ha Ht. unfold Int.add, Int.sub. split; intros H.
  - rewrite <- H.
    replace (Int.wrap (a + b) - b) with (Int.wrap (a + b) + - b) by lia.
    rewrite wrap_wrap_add.
    replace (a + b + - b) with a by lia. by rewrite wrap_id.
  - rewrite H, wrap_wrap_add.
    replace (target - b + b) with target by lia. by apply wrap_id.
Qed.

Lemma incr_exact i : 0 <= i < Int.max -> Int.add i 1 = i + 1.
Proof.
  intros Hi. apply add_exact. unfold Int.in_range, Int.min, Int.max in *. lia.
Qed.

Lemma of_int_exact i : 0 <= i <= Int.max -> SizeT.of_int i = i.
Proof.
  unfold SizeT.of_int, SizeT.modulus, Int.max. intros Hi.
  apply Z.mod_small. lia.
Qed.

Lemma size_sub_exact n : 1 <= n <= Int.max -> SizeT.sub n 1 = n - 1.
Proof.
  unfold SizeT.sub, SizeT.modulus, Int.max. intros Hn.
  apply Z.mod_small. lia.
Qed.

(** ** Reading the vector *)

Lemma size_nonneg nums : 0 <= size nums.
Proof. unfold size. lia. Qed.

Lemma lookup_in_bounds (nums : list Z) i :
  0 <= i < size nums -> exists x, nums !! Z.to_nat i = Some x.
Proof.
  unfold size. intros Hi.
  destruct (lookup_lt_is_Some_2 nums (Z.to_nat i)) as [x Hx]; [lia | eauto].
Qed.

Lemma lookup_bounded (nums : list Z) i x :
  0 <= i -> nums !! Z.to_nat i = Some x -> i < size nums.
Proof.
  unfold size. intros Hi Hx. apply lookup_lt_Some in Hx. lia.
Qed.

Lemma vec_at_exact nums i x :
  0 <= i <= Int.max -> nums !! Z.to_nat i = Some x ->
  vec_at i nums = (Ok x, nums).
Proof.
  intros Hi Hx. unfold vec_at. by rewrite of_int_exact, Hx.
Qed.

Lemma wf_elem nums i x :
  wf_vector nums -> nums !! i = Some x -> Int.in_range x.
Proof.
  intros [Hall _] Hx. rewrite Forall_forall in Hall.
  apply Hall, list_elem_of_lookup. eauto.
Qed.

(** ** The brute-force loops *)

Section BruteForce.
Variable nums : list Z.
Variable target : Z.
Hypothesis Hsize : size nums <= Int.max.

Lemma twoSum_inner_spec i :
  0 <= i < size nums ->
  forall fuel j,
    0 <= j <= size nums -> size nums - j < Z.of_nat fuel ->
    exists r, twoSum_inner fuel target i j nums = (Ok r, nums) /\
              inner_post nums target i j r.
Proof.
  intros Hi. induction fuel as [|fuel IH]; intros j Hj Hfuel; [lia|].
  cbn [twoSum_inner]. unfold bind at 1. cbn [vec_size].
  fold (size nums). rewrite of_int_exact by lia.
  destruct (Z.ltb_spec j (size nums)) as [Hlt|Hge].
  - destruct (lookup_in_bounds nums i) as [a Ha]; [lia|].
    destruct (lookup_in_bounds nums j) as [b Hb]; [lia|].
    unfold bind.
    rewrite (vec_at_exact nums i a), (vec_at_exact nums j b) by (lia || done).
    destruct (Z.eqb_spec (Int.add a b) target) as [Heq|Hne].
    + exists (Returned [i; j]). split; [done|].
      exists j. repeat split; try lia. exists a, b. done.
    + rewrite incr_exact by lia.
      destruct (IH (j + 1)) as (r & Hr & Hpost); [lia | lia |].
      exists r. split; [done|].
      assert (Hj0 : ~ sums_to nums target i j).
      { intros (a' & b' & Ha' & Hb' & Hs). congruence. }
      destruct r as [|v]; cbn in *.
      * intros k Hk. destruct (Z.eq_dec k j) as [->|]; [done|].
        apply Hpost. lia.
      * destruct Hpost as (j' & -> & Hj' & Hs & Hmin).
        exists j'. repeat split; try lia; [done|].
        intros k Hk. destruct (Z.eq_dec k j) as [->|]; [done|].
        apply Hmin. lia.
  - exists Fallthrough. split; [done|]. cbn. intros k Hk. lia.
Qed.

Lemma twoSum_outer_spec budget :
  2 <= size nums -> size nums < Z.of_nat budget ->
  forall fuel i,
    0 <= i < size nums -> size nums - 1 - i < Z.of_nat fuel ->
    exists r, twoSum_outer budget fuel target i nums = (Ok r, nums) /\
              outer_post nums target i r.
Proof.
  intros Hn Hbudget. induction fuel as [|fuel IH]; intros i Hi Hfuel; [lia|].
  cbn [twoSum_outer]. unfold bind at 1. cbn [vec_size].
  fold (size nums). rewrite of_int_exact, size_sub_exact by lia.
  destruct (Z.ltb_spec i (size nums - 1)) as [Hlt|Hge].
  - rewrite incr_exact by lia. unfold bind at 1.
    destruct (twoSum_inner_spec i ltac:(lia) budget (i + 1))
      as (r & -> & Hpost); [lia | lia |].
    destruct r as [|v]; cbn in Hpost.
    + destruct (IH (i + 1)) as (r & Hr & Hout); [lia | lia |].
      exists r. split; [done|].
      assert (Hrow : forall b, ~ valid_pair nums target i b).
      { intros b (Hab & Hb & Hs). apply (Hpost b); [lia | done]. }
      destruct r as [|v]; cbn in *.
      * intros a b Ha. destruct (Z.eq_dec a i) as [->|]; [apply Hrow|].
        apply Hout. lia.
      * destruct Hout as (i' & j' & -> & Hi' & Hv & Hmin).
        exists i', j'. repeat split; try lia; try apply Hv.
        intros a b Ha Hab. destruct (Z.eq_dec a i) as [->|].
        -- by destruct (Hrow b).
        -- apply Hmin; [lia | done].
    + destruct Hpost as (j' & -> & Hj' & Hs & Hmin).
      exists (Returned [i; j']). split; [done|].
      exists i, j'. repeat split; try lia; [done|].
      intros a b Ha (Hab & Hb & Hsab).
      destruct (Z.eq_dec a i) as [->|]; [|lia].
      right. split; [done|].
      destruct (Z.le_gt_cases j' b) as [|Hlt']; [done|].
      destruct (Hmin b); [lia | done].
  - exists Fallthrough. split; [done|]. cbn.
    intros a b Ha (Hab & Hb & _). lia.
Qed.

Lemma twoSum_run :
  exists v, twoSum target nums = (Ok v, nums) /\ twoSum_post nums target v.
Proof.
  unfold twoSum, bind at 1. cbn [vec_size]. fold (size nums).
  destruct (Z.ltb_spec (size nums) 2) as [Hlt|Hge].
  - exists []. split; [done|]. left. split; [done|].
    intros a b (Hab & Hb & _). lia.
  - unfold bind.
    destruct (twoSum_outer_spec (S (Z.to_nat (size nums))) Hge
                ltac:(lia) (S (Z.to_nat (size nums))) 0)
      as (r & -> & Hpost); [lia | lia |].
    destruct r as [|v]; cbn in Hpost.
    + exists []. split; [done|]. left. split; [done|]. intros a b Hv.
      apply (Hpost a b); [|done]. destruct Hv as (? & _). lia.
    + exists v. split; [done|]. right.
      destruct Hpost as (i & j & -> & Hi & Hv & Hmin).
      exists i, j. split; [done|]. split; [done|].
      intros a b Hab. apply Hmin; [|done]. destruct Hab as (? & _). lia.
Qed.
End BruteForce.

(** ** The indexed loop *)

Lemma cache_inv_empty nums : cache_inv nums 0 ∅.
Proof.
  split.
  - intros v k Hk. by rewrite lookup_empty in Hk.
  - intros v _ k Hk. lia.
Qed.

Lemma cache_inv_emplace nums i num cache :
  0 <= i -> nums !! Z.to_nat i = Some num ->
  cache_inv nums i cache -> cache_inv nums (i + 1) (emplace num i cache).
Proof.
  intros Hi Hnum [Hsome Hnone]. unfold emplace.
  destruct (cache !! num) as [k0|] eqn:Hc.
  - split.
    + intros v k Hk. destruct (Hsome v k Hk) as (Hr & Hv & Hmin).
      repeat split; try lia; done.
    + intros v Hv k Hk. destruct (Z.eq_dec k i) as [->|].
      * rewrite Hnum. intros [= ->]. congruence.
      * apply Hnone; [done | lia].
  - split.
    + intros v k Hk. destruct (Z.eq_dec num v) as [->|Hne].
      * rewrite lookup_insert_eq in Hk. injection Hk as <-.
        repeat split; try lia; [done|].
        intros k' Hk'. by apply Hnone.
      * rewrite lookup_insert_ne in Hk by done.
        destruct (Hsome v k Hk) as (Hr & Hv & Hmin).
        repeat split; try lia; done.
    + intros v Hv k Hk. destruct (Z.eq_dec num v) as [->|Hne].
      * by rewrite lookup_insert_eq in Hv.
      * rewrite lookup_insert_ne in Hv by done.
        destruct (Z.eq_dec k i) as [->|].
        -- rewrite Hnum. congruence.
        -- apply Hnone; [done | lia].
Qed.

Section Indexed.
Variable nums : list Z.
Variable target : Z.
Hypothesis Hwf : wf_vector nums.
Hypothesis Htarget : Int.in_range target.

(** A valid pair ending at [j] is a position before [j] that holds the
    partner value [target - nums[j]]. *)
Lemma valid_pair_partner a j num :
  0 <= j -> nums !! Z.to_nat j = Some num ->
  valid_pair nums target a j <->
  0 <= a < j /\ nums !! Z.to_nat a = Some (Int.sub target num).
Proof.
  intros Hj Hnum. split.
  - intros (Ha & Hlt & x & y & Hx & Hy & Hs).
    split; [done|]. rewrite Hnum in Hy. injection Hy as <-.
    rewrite Hx. f_equal. apply add_sub_iff; [|done..].
    by apply (wf_elem nums (Z.to_nat a)).
  - intros (Ha & Hx). split; [done|]. split.
    + by apply (lookup_bounded nums j num).
    + exists (Int.sub target num), num. repeat split; [done..|].
      apply add_sub_iff; [|done..]. apply wrap_in_range.
Qed.

Lemma twoSum2_loop_spec :
  forall fuel i cache,
    0 <= i <= size nums -> size nums - i < Z.of_nat fuel ->
    cache_inv nums i cache ->
    exists r, twoSum2_loop fuel target cache i nums = (Ok r, nums) /\
              loop_post nums target i r.
Proof.
  destruct Hwf as [_ Hsize].
  induction fuel as [|fuel IH]; intros i cache Hi Hfuel Hinv; [lia|].
  cbn [twoSum2_loop]. unfold bind at 1. cbn [vec_size].
  fold (size nums). rewrite of_int_exact by lia.
  destruct (Z.ltb_spec i (size nums)) as [Hlt|Hge].
  - destruct (lookup_in_bounds nums i) as [num Hnum]; [lia|].
    unfold bind. rewrite (vec_at_exact nums i num) by (lia || done).
    destruct (cache !! Int.sub target num) as [k|] eqn:Hc.
    + exists (Returned [k; i]). split; [done|].
      destruct Hinv as [Hsome _].
      destruct (Hsome _ _ Hc) as (Hk & Hv & Hmin).
      exists k, i. split; [done|]. split; [lia|]. split; [|split].
      * apply (valid_pair_partner k i num); [lia | done | done].
      * intros a Ha. apply (valid_pair_partner a i num) in Ha as [Hr Ha];
          [|lia|done].
        destruct (Z.le_gt_cases k a) as [|Hlt']; [done|].
        destruct (Hmin a); [lia | done].
      * intros a b Hb. lia.
    + rewrite incr_exact by lia.
      destruct (IH (i + 1) (emplace num i cache)) as (r & Hr & Hpost);
        [lia | lia | by apply cache_inv_emplace; [lia|..] |].
      exists r. split; [done|].
      assert (Hcol : forall a, ~ valid_pair nums target a i).
      { intros a Ha. apply (valid_pair_partner a i num) in Ha as [Hr' Ha];
          [|lia|done].
        destruct Hinv as [_ Hnone]. by apply (Hnone _ Hc a). }
      destruct r as [|v]; cbn in *.
      * intros a b Hb. destruct (Z.eq_dec b i) as [->|]; [apply Hcol|].
        apply Hpost. lia.
      * destruct Hpost as (k & j & -> & Hj & Hv & Hfirst & Hnone).
        exists k, j. split; [done|]. split; [lia|]. do 2 (split; [done|]).
        intros a b Hb. destruct (Z.eq_dec b i) as [->|]; [apply Hcol|].
        apply Hnone. lia.
  - exists Fallthrough. split; [done|]. cbn.
    intros a b Hb (_ & Hlt & _). lia.
Qed.

Lemma twoSum2_run :
  exists v, twoSum2 target nums = (Ok v, nums) /\ twoSum2_post nums target v.
Proof.
  unfold twoSum2, bind at 1. cbn [vec_size]. fold (size nums).
  destruct (Z.ltb_spec (size nums) 2) as [Hlt|Hge].
  - exists []. split; [done|]. left. split; [done|].
    intros a b (Hab & Hb & _). lia.
  - unfold bind.
    destruct (twoSum2_loop_spec (S (Z.to_nat (size nums))) 0 ∅)
      as (r & -> & Hpost); [lia | lia | apply cache_inv_empty |].
    destruct r as [|v]; cbn in Hpost.
    + exists []. split; [done|]. left. split; [done|]. intros a b Hv.
      apply (Hpost a b); [|done]. destruct Hv as (? & _). lia.
    + exists v. split; [done|]. right.
      destruct Hpost as (i & j & -> & Hj & Hv & Hfirst & Hnone).
      exists i, j. split; [done|]. split; [done|].
      intros a b Hab.
      destruct (Z.lt_trichotomy j b) as [?|[<-|Hlt]]; [by left | |].
      * right. split; [done|]. by apply Hfirst.
      * destruct (Hnone a b); [|done]. destruct Hab as (? & _). lia.
Qed.
End Indexed.

(** ** Frame: no computation of the program writes to the vector *)

Lemma frame_ret {A : Type} (a : A) : frame (ret a).
Proof. by intros nums. Qed.

Lemma frame_fail {A : Type} (e : error) : frame (@fail A e).
Proof. by intros nums. Qed.

Lemma frame_vec_size : frame vec_size.
Proof. by intros nums. Qed.

Lemma frame_vec_at i : frame (vec_at i).
Proof. intros nums. unfold vec_at. by destruct (nums !! _). Qed.

Lemma frame_bind {A B : Type} (m : M A) (f : A -> M B) :
  frame m -> (forall a, frame (f a)) -> frame (bind m f).
Proof.
  intros Hm Hf nums. unfold bind. specialize (Hm nums).
  destruct (m nums) as [[a|e] nums']; cbn in Hm; subst nums'; [apply Hf|done].
Qed.

Ltac frame_step :=
  first
    [ apply frame_ret | apply frame_fail | apply frame_vec_size
    | apply frame_vec_at | assumption
    | apply frame_bind; [|intros ?]
    | match goal with
      | |- frame (if ?b then _ else _) => destruct b
      | |- frame (match ?x with _ => _ end) => destruct x
      end ].

Lemma frame_twoSum_inner fuel target i j :
  frame (twoSum_inner fuel target i j).
Proof.
  revert j. induction fuel as [|fuel IH]; intros j; cbn [twoSum_inner];
    repeat frame_step. apply IH.
Qed.

Lemma frame_twoSum_outer budget fuel target i :
  frame (twoSum_outer budget fuel target i).
Proof.
  revert i. induction fuel as [|fuel IH]; intros i; cbn [twoSum_outer];
    repeat frame_step; [apply frame_twoSum_inner | apply IH].
Qed.

Lemma frame_twoSum target : frame (twoSum target).
Proof.
  unfold twoSum. apply frame_bind; [apply frame_vec_size | intros n].
  destruct (n <? 2); [apply frame_ret|]. cbv zeta.
  apply frame_bind; [apply frame_twoSum_outer | intros [|v]; apply frame_ret].
Qed.

Lemma frame_twoSum2_loop fuel target cache i :
  frame (twoSum2_loop fuel target cache i).
Proof.
  revert cache i. induction fuel as [|fuel IH]; intros cache i;
    cbn [twoSum2_loop]; repeat frame_step. apply IH.
Qed.

Lemma frame_twoSum2 target : frame (twoSum2 target).
Proof.
  unfold twoSum2. apply frame_bind; [apply frame_vec_size | intros n].
  destruct (n <? 2); [apply frame_ret|].
  apply frame_bind; [apply frame_twoSum2_loop | intros [|v]; apply frame_ret].
Qed.

Lemma call_twice_frame {A : Type} (m : M A) nums :
  frame m ->
  call_twice m nums =
    match m nums with
    | (Ok r, _) => (Ok (r, r), nums)
    | (Fault e, _) => (Fault e, nums)
    end.
Proof.
  intros Hm. unfold call_twice, bind. pose proof (Hm nums) as Hs.
  destruct (m nums) as [[r|e] nums'] eqn:Hr; cbn in Hs; subst nums'; [|done].
  by rewrite Hr.
Qed.

(** ** Every read is in bounds *)

Lemma of_int_bounds i : 0 <= SizeT.of_int i < SizeT.modulus.
Proof. unfold SizeT.of_int, SizeT.modulus. apply Z.mod_pos_bound. lia. Qed.

Lemma vec_at_guarded nums i :
  SizeT.of_int i < size nums ->
  exists x, vec_at i nums = (Ok x, nums).
Proof.
  intros Hi. pose proof (of_int_bounds i) as Hb. unfold vec_at.
  destruct (lookup_in_bounds nums (SizeT.of_int i)) as [x ->]; [lia | eauto].
Qed.

Lemma no_oob_twoSum_inner nums fuel target i j :
  SizeT.of_int i < size nums ->
  no_oob (twoSum_inner fuel target i j) nums.
Proof.
  intros Hi. revert j. induction fuel as [|fuel IH]; intros j; [done|].
  unfold no_oob. cbn [twoSum_inner]. unfold bind at 1. cbn [vec_size].
  fold (size nums). destruct (Z.ltb_spec (SizeT.of_int j) (size nums)); [|done].
  unfold bind.
  destruct (vec_at_guarded nums i) as [a ->]; [done|].
  destruct (vec_at_guarded nums j) as [b ->]; [done|].
  destruct (Int.add a b =? target); [done | apply IH].
Qed.

Lemma size_sub_le n : 1 <= n -> SizeT.sub n 1 <= n - 1.
Proof.
  intros Hn. unfold SizeT.sub, SizeT.modulus. apply Z.mod_le; lia.
Qed.

Lemma no_oob_twoSum_outer nums budget fuel target i :
  1 <= size nums ->
  no_oob (twoSum_outer budget fuel target i) nums.
Proof.
  intros Hn. revert i. induction fuel as [|fuel IH]; intros i; [done|].
  unfold no_oob. cbn [twoSum_outer]. unfold bind at 1. cbn [vec_size].
  fold (size nums).
  destruct (Z.ltb_spec (SizeT.of_int i) (SizeT.sub (size nums) 1)) as [Hi|];
    [|done].
  pose proof (size_sub_le (size nums) Hn).
  pose proof (no_oob_twoSum_inner nums budget target i (Int.add i 1)
                ltac:(lia)) as Hin.
  pose proof (frame_twoSum_inner budget target i (Int.add i 1) nums) as Hfr.
  unfold no_oob in Hin. unfold bind.
  destruct (twoSum_inner budget target i (Int.add i 1) nums)
    as [[[|v]|e] nums']; cbn in *; subst; [apply IH | done | done].
Qed.

Lemma no_oob_twoSum nums target : no_oob (twoSum target) nums.
Proof.
  unfold no_oob, twoSum, bind at 1. cbn [vec_size]. fold (size nums).
  destruct (Z.ltb_spec (size nums) 2) as [|Hn]; [done|].
  set (budget := S (Z.to_nat (size nums))).
  pose proof (no_oob_twoSum_outer nums budget budget target 0 ltac:(lia))
    as Hout.
  unfold no_oob in Hout. unfold bind.
  destruct (twoSum_outer budget budget target 0 nums) as [[[|v]|e] nums'];
    cbn in *; [done.. | intros [= ->]; by apply Hout].
Qed.

Lemma no_oob_twoSum2_loop nums fuel target cache i :
  no_oob (twoSum2_loop fuel target cache i) nums.
Proof.
  revert cache i. induction fuel as [|fuel IH]; intros cache i; [done|].
  unfold no_oob. cbn [twoSum2_loop]. unfold bind at 1. cbn [vec_size].
  fold (size nums). destruct (Z.ltb_spec (SizeT.of_int i) (size nums)); [|done].
  unfold bind. destruct (vec_at_guarded nums i) as [num ->]; [done|].
  destruct (cache !! Int.sub target num); [done | apply IH].
Qed.

Lemma no_oob_twoSum2 nums target : no_oob (twoSum2 target) nums.
Proof.
  unfold no_oob, twoSum2, bind at 1. cbn [vec_size]. fold (size nums).
  destruct (Z.ltb_spec (size nums) 2) as [|Hn]; [done|].
  pose proof (no_oob_twoSum2_loop nums (S (Z.to_nat (size nums))) target ∅ 0)
    as Hloop.
  unfold no_oob in Hloop. unfold bind.
  destruct (twoSum2_loop _ target ∅ 0 nums) as [[[|v]|e] nums'];
    cbn in *; [done.. | intros [= ->]; by apply Hloop].
Qed.

Lemma twoSum2_loop_refines nums target :
  size nums <= Int.max ->
  forall fuel i cache,
    0 <= i <= size nums -> size nums - i < Z.of_nat fuel ->
    twoSum2_loop fuel target cache i nums =
      (Ok (flow_of (find_pair_indexed_from target cache i
                      (drop (Z.to_nat i) nums))), nums).
Proof.
  intros Hsize. induction fuel as [|fuel IH]; intros i cache Hi Hfuel; [lia|].
  cbn [twoSum2_loop]. unfold bind at 1. cbn [vec_size].
  fold (size nums). rewrite of_int_exact by lia.
  destruct (Z.ltb_spec i (size nums)) as [Hlt|Hge].
  - destruct (lookup_in_bounds nums i) as [num Hnum]; [lia|].
    unfold bind. rewrite (vec_at_exact nums i num) by (lia || done).
    rewrite (drop_S _ _ _ Hnum). cbn [find_pair_indexed_from].
    destruct (cache !! Int.sub target num) as [k|]; [done|].
    rewrite incr_exact, IH by lia. fold (emplace num i cache).
    by replace (Z.to_nat (i + 1)) with (S (Z.to_nat i)) by lia.
  - rewrite drop_ge by (unfold size in *; lia). done.
Qed.

Lemma twoSum2_refines nums target :
  size nums <= Int.max ->
  twoSum2 target nums = (Ok (find_pair_indexed nums target), nums).
Proof.
  intros Hsize. unfold twoSum2, find_pair_indexed, bind at 1.
  cbn [vec_size]. fold (size nums).
  destruct (Z.ltb_spec (size nums) 2) as [Hlt|Hge]; [done|].
  unfold bind. rewrite twoSum2_loop_refines by lia.
  change (drop (Z.to_nat 0) nums) with nums.
  by destruct (find_pair_indexed_from target ∅ 0 nums).
Qed.

Lemma find_app_first {A : Type} (p : A -> bool) (l1 l2 : list A) :
  find p (l1 ++ l2) =
    match find p l1 with
    | Some x => Some x
    | None => find p l2
    end.
Proof.
  induction l1 as [|x l1 IH]; cbn; [done|]. by destruct (p x).
Qed.

Lemma twoSum_inner_refines nums target i :
  size nums <= Int.max -> 0 <= i < size nums ->
  forall fuel j,
    0 <= j <= size nums -> size nums - j < Z.of_nat fuel ->
    twoSum_inner fuel target i j nums =
      (Ok (flow_of (indices
             (find (pair_sums nums target)
                (map (pair (Z.to_nat i))
                   (seq (Z.to_nat j) (length nums - Z.to_nat j)))))),
       nums).
Proof.
  intros Hsize Hi. induction fuel as [|fuel IH]; intros j Hj Hfuel; [lia|].
  cbn [twoSum_inner]. unfold bind at 1. cbn [vec_size].
  fold (size nums). rewrite of_int_exact by lia.
  unfold size in *.
  destruct (Z.ltb_spec j (Z.of_nat (length nums))) as [Hlt|Hge].
  - destruct (lookup_in_bounds nums i) as [a Ha]; [done|].
    destruct (lookup_in_bounds nums j) as [b Hb]; [unfold size; lia|].
    unfold bind.
    rewrite (vec_at_exact nums i a), (vec_at_exact nums j b) by (lia || done).
    replace (length nums - Z.to_nat j)%nat
      with (S (length nums - S (Z.to_nat j))) by lia.
    cbn [seq map find]. unfold pair_sums at 1. cbn [fst snd].
    rewrite Ha, Hb. destruct (Int.add a b =? target).
    + cbn. by rewrite !Z2Nat.id by lia.
    + rewrite incr_exact, IH by lia.
      by replace (Z.to_nat (j + 1)) with (S (Z.to_nat j)) by lia.
  - by replace (length nums - Z.to_nat j)%nat with 0%nat by lia.
Qed.

Lemma twoSum_outer_refines nums target budget :
  size nums <= Int.max -> 2 <= size nums -> size nums < Z.of_nat budget ->
  forall fuel i,
    0 <= i < size nums -> size nums - 1 - i < Z.of_nat fuel ->
    twoSum_outer budget fuel target i nums =
      (Ok (flow_of (indices
             (find (pair_sums nums target)
                (flat_map (pairs_in_row (length nums))
                   (seq (Z.to_nat i) (length nums - Z.to_nat i)))))),
       nums).
Proof.
  intros Hsize Hn Hbudget.
  induction fuel as [|fuel IH]; intros i Hi Hfuel; [lia|].
  cbn [twoSum_outer]. unfold bind at 1. cbn [vec_size].
  fold (size nums). rewrite of_int_exact, size_sub_exact by lia.
  replace (length nums - Z.to_nat i)%nat
    with (S (length nums - S (Z.to_nat i))) by (unfold size in *; lia).
  cbn [seq flat_map]. rewrite find_app_first. unfold pairs_in_row at 1.
  destruct (Z.ltb_spec i (size nums - 1)) as [Hlt|Hge].
  - rewrite incr_exact by lia. unfold bind.
    rewrite (twoSum_inner_refines nums target i) by lia.
    replace (Z.to_nat (i + 1)) with (S (Z.to_nat i)) by lia.
    destruct (find _ (map _ _)) as [[a b]|]; [done|]. cbn [indices flow_of].
    rewrite IH by lia.
    by replace (Z.to_nat (i + 1)) with (S (Z.to_nat i)) by lia.
  - replace (length nums - S (Z.to_nat i))%nat with 0%nat
      by (unfold size in *; lia).
    done.
Qed.

Lemma twoSum_refines nums target :
  size nums <= Int.max ->
  twoSum target nums = (Ok (find_pair_brute nums target), nums).
Proof.
  intros Hsize. unfold twoSum, find_pair_brute, bind at 1.
  cbn [vec_size]. fold (size nums).
  destruct (Z.ltb_spec (size nums) 2) as [Hlt|Hge]; [done|].
  unfold bind. rewrite (twoSum_outer_refines nums target) by lia.
  change (Z.to_nat 0) with 0%nat.
  rewrite Nat.sub_0_r. fold (row_major_pairs (length nums)).
  by destruct (find _ _) as [[a b]|].
Qed.

(** ** Existence of a solution *)

Lemma sums_to_sym nums target i j :
  sums_to nums target i j -> sums_to nums target j i.
Proof.
  intros (a & b & Ha & Hb & Hs). exists b, a. by rewrite add_comm.
Qed.

Lemma has_solution_ordered nums target :
  has_solution nums target <-> exists i j, valid_pair nums target i j.
Proof.
  split.
  - intros (i & j & Hne & Hi & Hj & Hs).
    destruct (Z.lt_trichotomy i j) as [Hlt|[->|Hgt]]; [|done|].
    + exists i, j. repeat split; try lia. done.
    + exists j, i. repeat split; try lia. by apply sums_to_sym.
  - intros (i & j & Hij & Hj & Hs). exists i, j. repeat split; try lia. done.
Qed.

Lemma sums_to_exact nums target i j :
  sums_to nums target i j ->
  exists a b,
    nums !! Z.to_nat i = Some a /\ nums !! Z.to_nat j = Some b /\
    Int.add a b = target /\ (Int.in_range (a + b) -> a + b = target).
Proof.
  intros (a & b & Ha & Hb & Hs). exists a, b. repeat split; try done.
  intros Hr. by rewrite <- Hs, add_exact.
Qed.

Ltac solve_wf :=
  repeat first
    [ progress (unfold wf_vector, size, Int.in_range, Int.min, Int.max; cbn)
    | split | apply Forall_cons | apply Forall_nil | lia ].

(** The length guard of both operations. *)
Lemma length_guard nums target :
  size nums < 2 ->
  twoSum target nums = (Ok [], nums) /\ twoSum2 target nums = (Ok [], nums).
Proof.
  intros Hn. unfold twoSum, twoSum2, bind. cbn [vec_size].
  by destruct (Z.ltb_spec (size nums) 2); [|lia].
Qed.

(** An exact solution, with the sum taken in the integers, is a solution. *)
Lemma exact_solution nums target i j a b :
  Int.in_range target ->
  i <> j -> nums !! Z.to_nat i = Some a -> nums !! Z.to_nat j = Some b ->
  0 <= i -> 0 <= j -> a + b = target ->
  has_solution nums target.
Proof.
  intros Ht Hne Ha Hb Hi Hj Hs. exists i, j. split; [done|].
  split; [split; [done | by apply (lookup_bounded nums i a)]|].
  split; [split; [done | by apply (lookup_bounded nums j b)]|].
  exists a, b. do 2 (split; [done|]). rewrite <- Hs in *. by apply add_exact.
Qed.

(** The enumeration on a vector of three elements. *)
Example row_major_pairs_3 :
  row_major_pairs 3 = [(0, 1); (0, 2); (1, 2)]%nat.
Proof. reflexivity. Qed.

(** ** The properties of the pair finder *)

(** C1.  Whatever either operation returns is the empty result or exactly two
    positions [i < j], both in bounds, whose values sum to the target in [int]
    arithmetic; the sum is the mathematical one whenever that is
    representable. *)
Theorem returned_pair_is_valid nums target v nums' :
  wf_vector nums -> Int.in_range target ->
  twoSum target nums = (Ok v, nums') \/ twoSum2 target nums = (Ok v, nums') ->
  v = [] \/
  exists i j,
    v = [i; j] /\ i <> j /\ 0 <= i < j /\ j < size nums /\
    exists a b,
      nums !! Z.to_nat i = Some a /\ nums !! Z.to_nat j = Some b /\
      Int.add a b = target /\ (Int.in_range (a + b) -> a + b = target).
Proof.
  intros Hwf Ht Hrun.
  assert (Hv : v = [] \/ exists i j, v = [i; j] /\ valid_pair nums target i j).
  { destruct Hrun as [Hrun|Hrun].
    - destruct (twoSum_run nums target (proj2 Hwf)) as (v' & Hr & Hpost).
      rewrite Hr in Hrun. injection Hrun as <- _.
      destruct Hpost as [[-> _]|(i & j & -> & Hv & _)]; eauto.
    - destruct (twoSum2_run nums target Hwf Ht) as (v' & Hr & Hpost).
      rewrite Hr in Hrun. injection Hrun as <- _.
      destruct Hpost as [[-> _]|(i & j & -> & Hv & _)]; eauto. }
  destruct Hv as [->|(i & j & -> & Hij & Hj & Hs)]; [by left|right].
  exists i, j. repeat split; try lia. by apply sums_to_exact.
Qed.

Lemma returned_pair_is_valid_witness :
  [1; 2] = [] \/
  exists i j,
    [1; 2] = [i; j] /\ i <> j /\ 0 <= i < j /\ j < size [3; 2; 4] /\
    exists a b,
      [3; 2; 4] !! Z.to_nat i = Some a /\ [3; 2; 4] !! Z.to_nat j = Some b /\
      Int.add a b = 6 /\ (Int.in_range (a + b) -> a + b = 6).
Proof.
  apply (returned_pair_is_valid [3; 2; 4] 6 [1; 2] [3; 2; 4]);
    [solve_wf | solve_wf | right; vm_compute; reflexivity].
Defined.

(** The sum is the [int] sum: at the edge of the range it wraps around. *)
Example sum_wraps_around :
  twoSum Int.min [Int.max; 1] = (Ok [0; 1], [Int.max; 1]) /\
  twoSum2 Int.min [Int.max; 1] = (Ok [0; 1], [Int.max; 1]) /\
  Int.add Int.max 1 = Int.min.
Proof. repeat split; vm_compute; reflexivity. Qed.

(** C2.  Each operation returns a non-empty result exactly when some two
    distinct positions sum to the target: with a solution it returns a valid
    pair, without one the empty result. *)
Theorem nonempty_iff_solution nums target :
  wf_vector nums -> Int.in_range target ->
  exists v1 v2,
    twoSum target nums = (Ok v1, nums) /\
    twoSum2 target nums = (Ok v2, nums) /\
    (v1 <> [] <-> has_solution nums target) /\
    (v2 <> [] <-> has_solution nums target) /\
    (has_solution nums target ->
       (exists i j, v1 = [i; j] /\ valid_pair nums target i j) /\
       (exists i j, v2 = [i; j] /\ valid_pair nums target i j)) /\
    (~ has_solution nums target -> v1 = [] /\ v2 = []).
Proof.
  intros Hwf Ht.
  destruct (twoSum_run nums target (proj2 Hwf)) as (v1 & Hr1 & Hp1).
  destruct (twoSum2_run nums target Hwf Ht) as (v2 & Hr2 & Hp2).
  exists v1, v2. do 2 (split; [done|]). rewrite has_solution_ordered.
  destruct Hp1 as [[-> Hno1]|(i1 & j1 & -> & Hv1 & _)];
    destruct Hp2 as [[-> Hno2]|(i2 & j2 & -> & Hv2 & _)].
  - assert (Hnone : ~ exists i j, valid_pair nums target i j).
    { intros (i & j & Hv). by destruct (Hno1 i j). }
    split; [|split; [|split]]; [split; [done | by intros H].. | by intros H | done].
  - by destruct (Hno1 i2 j2).
  - by destruct (Hno2 i1 j1).
  - assert (Hsome : exists i j, valid_pair nums target i j) by eauto.
    split; [|split; [|split]]; [done.. | | by intros H].
    intros _. split; eauto.
Qed.

Lemma nonempty_iff_solution_witness :
  exists v1 v2,
    twoSum 6 [3; 2; 4] = (Ok v1, [3; 2; 4]) /\
    twoSum2 6 [3; 2; 4] = (Ok v2, [3; 2; 4]) /\
    (v1 <> [] <-> has_solution [3; 2; 4] 6) /\
    (v2 <> [] <-> has_solution [3; 2; 4] 6) /\
    (has_solution [3; 2; 4] 6 ->
       (exists i j, v1 = [i; j] /\ valid_pair [3; 2; 4] 6 i j) /\
       (exists i j, v2 = [i; j] /\ valid_pair [3; 2; 4] 6 i j)) /\
    (~ has_solution [3; 2; 4] 6 -> v1 = [] /\ v2 = []).
Proof. apply (nonempty_iff_solution [3; 2; 4] 6); solve_wf. Defined.

(** C3.  On a vector of length at least two that has a solution, [twoSum]
    returns the first pair of the row-major enumeration of all index pairs
    whose values sum to the target, and that pair is the lexicographically
    smallest valid pair. *)
Theorem twoSum_returns_first_pair nums target :
  wf_vector nums -> 2 <= size nums -> has_solution nums target ->
  exists i j,
    twoSum target nums = (Ok [i; j], nums) /\
    find_pair_brute nums target = [i; j] /\
    valid_pair nums target i j /\
    forall a b, valid_pair nums target a b -> i < a \/ (i = a /\ j <= b).
Proof.
  intros Hwf Hn Hsol. apply has_solution_ordered in Hsol as (a & b & Hab).
  pose proof (twoSum_refines nums target (proj2 Hwf)) as Href.
  destruct (twoSum_run nums target (proj2 Hwf)) as (v & Hr & Hpost).
  destruct Hpost as [[-> Hno]|(i & j & -> & Hv & Hmin)].
  - by destruct (Hno a b).
  - exists i, j. split; [done|]. split; [|done].
    rewrite Hr in Href. by injection Href as ->.
Qed.

Lemma twoSum_returns_first_pair_witness :
  exists i j,
    twoSum 5 [1; 2; 3; 4] = (Ok [i; j], [1; 2; 3; 4]) /\
    find_pair_brute [1; 2; 3; 4] 5 = [i; j] /\
    valid_pair [1; 2; 3; 4] 5 i j /\
    forall a b, valid_pair [1; 2; 3; 4] 5 a b -> i < a \/ (i = a /\ j <= b).
Proof.
  apply (twoSum_returns_first_pair [1; 2; 3; 4] 5); [solve_wf | solve_wf |].
  exists 0, 3. repeat split; try (cbn; lia). by exists 1, 4.
Defined.

(** C4.  The two operations agree on whether a solution exists: one returns
    a non-empty result exactly when the other does. *)
Theorem operations_agree_on_existence nums target :
  wf_vector nums -> Int.in_range target ->
  exists v1 v2,
    twoSum target nums = (Ok v1, nums) /\
    twoSum2 target nums = (Ok v2, nums) /\
    (v1 <> [] <-> v2 <> []).
Proof.
  intros Hwf Ht.
  destruct (twoSum_run nums target (proj2 Hwf)) as (v1 & Hr1 & Hp1).
  destruct (twoSum2_run nums target Hwf Ht) as (v2 & Hr2 & Hp2).
  exists v1, v2. do 2 (split; [done|]).
  destruct Hp1 as [[-> Hno1]|(i1 & j1 & -> & Hv1 & _)];
    destruct Hp2 as [[-> Hno2]|(i2 & j2 & -> & Hv2 & _)]; [done | | | done].
  - by destruct (Hno1 i2 j2).
  - by destruct (Hno2 i1 j1).
Qed.

Lemma operations_agree_on_existence_witness :
  exists v1 v2,
    twoSum 5 [1; 2; 3; 4] = (Ok v1, [1; 2; 3; 4]) /\
    twoSum2 5 [1; 2; 3; 4] = (Ok v2, [1; 2; 3; 4]) /\
    (v1 <> [] <-> v2 <> []).
Proof. apply (operations_agree_on_existence [1; 2; 3; 4] 5); solve_wf. Defined.

(** The two operations may return different pairs for the same input. *)
Example operations_may_differ :
  twoSum 5 [1; 2; 3; 4] = (Ok [0; 3], [1; 2; 3; 4]) /\
  twoSum2 5 [1; 2; 3; 4] = (Ok [1; 2], [1; 2; 3; 4]).
Proof. split; vm_compute; reflexivity. Qed.

(** C5.  [twoSum2] is the left-to-right scan of the specification: look up
    [target - v] first, insert [(v, i)] only when [v] is absent.  A returned
    pair is therefore (earlier, later), never a position with itself, and its
    first component is the first occurrence of its value. *)
Theorem twoSum2_follows_indexed_scan nums target :
  wf_vector nums -> Int.in_range target ->
  twoSum2 target nums = (Ok (find_pair_indexed nums target), nums) /\
  forall k j,
    find_pair_indexed nums target = [k; j] ->
    0 <= k < j /\ j < size nums /\ sums_to nums target k j /\
    forall k', 0 <= k' < k -> nums !! Z.to_nat k' <> nums !! Z.to_nat k.
Proof.
  intros Hwf Ht.
  pose proof (twoSum2_refines nums target (proj2 Hwf)) as Href.
  split; [done|]. intros k j Hkj. rewrite Hkj in Href.
  destruct (twoSum2_run nums target Hwf Ht) as (v & Hr & Hpost).
  rewrite Hr in Href. injection Href as ->.
  destruct Hpost as [[[=] _]|(i' & j' & [= <- <-] & Hv & Hmin)].
  destruct Hv as (Hk & Hj & Hs). do 3 (split; [done|]).
  intros k' Hk' Heq. destruct Hs as (a & b & Ha & Hb & Hs).
  destruct (Hmin k' j); [|lia|lia].
  repeat split; try lia. exists a, b. by rewrite Heq.
Qed.

Lemma twoSum2_follows_indexed_scan_witness :
  twoSum2 6 [3; 3; 3] = (Ok (find_pair_indexed [3; 3; 3] 6), [3; 3; 3]) /\
  forall k j,
    find_pair_indexed [3; 3; 3] 6 = [k; j] ->
    0 <= k < j /\ j < size [3; 3; 3] /\ sums_to [3; 3; 3] 6 k j /\
    forall k', 0 <= k' < k -> [3; 3; 3] !! Z.to_nat k' <> [3; 3; 3] !! Z.to_nat k.
Proof. apply (twoSum2_follows_indexed_scan [3; 3; 3] 6); solve_wf. Defined.

(** C6.  On a vector of fewer than two elements both operations return the
    empty result, as an ordinary return and not as an error. *)
Theorem short_input_gives_empty nums target :
  size nums < 2 ->
  twoSum target nums = (Ok [], nums) /\ twoSum2 target nums = (Ok [], nums).
Proof. apply length_guard. Qed.

Lemma short_input_gives_empty_witness :
  twoSum 1 [1] = (Ok [], [1]) /\ twoSum2 1 [1] = (Ok [], [1]).
Proof. apply (short_input_gives_empty [1] 1). unfold size. cbn. lia. Defined.

(** C7.  The five scenarios of the specification, for both operations, and
    the assertions of [checkSolution]. *)
Theorem concrete_scenarios :
  (twoSum 9 [2; 7; 11; 15] = (Ok [0; 1], [2; 7; 11; 15]) /\
   twoSum2 9 [2; 7; 11; 15] = (Ok [0; 1], [2; 7; 11; 15])) /\
  (twoSum 6 [3; 2; 4] = (Ok [1; 2], [3; 2; 4]) /\
   twoSum2 6 [3; 2; 4] = (Ok [1; 2], [3; 2; 4])) /\
  (twoSum 6 [3; 3] = (Ok [0; 1], [3; 3]) /\
   twoSum2 6 [3; 3] = (Ok [0; 1], [3; 3])) /\
  (twoSum 1 [1] = (Ok [], [1]) /\ twoSum2 1 [1] = (Ok [], [1])) /\
  (twoSum 100 [1; 2; 3] = (Ok [], [1; 2; 3]) /\
   twoSum2 100 [1; 2; 3] = (Ok [], [1; 2; 3])) /\
  checkSolution = true.
Proof. repeat split; vm_compute; reflexivity. Qed.

(** C8.  Both operations leave the vector as they found it, whatever the
    outcome, and the result depends on the vector and the target alone: a
    second call right after the first returns the same result. *)
Theorem operations_are_pure nums target :
  snd (twoSum target nums) = nums /\
  snd (twoSum2 target nums) = nums /\
  call_twice (twoSum target) nums =
    match twoSum target nums with
    | (Ok r, _) => (Ok (r, r), nums)
    | (Fault e, _) => (Fault e, nums)
    end /\
  call_twice (twoSum2 target) nums =
    match twoSum2 target nums with
    | (Ok r, _) => (Ok (r, r), nums)
    | (Fault e, _) => (Fault e, nums)
    end.
Proof.
  split; [apply frame_twoSum|]. split; [apply frame_twoSum2|].
  split; apply call_twice_frame; [apply frame_twoSum | apply frame_twoSum2].
Qed.

(** C9.  The pair [(i, j)] that [twoSum2] returns is canonical: [j] is the
    smallest position completed by an earlier one, and [i] is the smallest
    position that completes it. *)
Theorem twoSum2_returns_canonical_pair nums target i j nums' :
  wf_vector nums -> Int.in_range target ->
  twoSum2 target nums = (Ok [i; j], nums') ->
  valid_pair nums target i j /\
  (forall a b, valid_pair nums target a b -> j <= b) /\
  (forall a, valid_pair nums target a j -> i <= a).
Proof.
  intros Hwf Ht Hrun.
  destruct (twoSum2_run nums target Hwf Ht) as (v & Hr & Hpost).
  rewrite Hr in Hrun. injection Hrun as -> _.
  destruct Hpost as [[[=] _]|(i' & j' & [= <- <-] & Hv & Hmin)].
  split; [done|]. split.
  - intros a b Hab. destruct (Hmin a b Hab); lia.
  - intros a Ha. destruct (Hmin a j Ha); lia.
Qed.

Lemma twoSum2_returns_canonical_pair_witness :
  valid_pair [1; 2; 3; 4] 5 1 2 /\
  (forall a b, valid_pair [1; 2; 3; 4] 5 a b -> 2 <= b) /\
  (forall a, valid_pair [1; 2; 3; 4] 5 a 2 -> 1 <= a).
Proof.
  apply (twoSum2_returns_canonical_pair [1; 2; 3; 4] 5 1 2 [1; 2; 3; 4]);
    [solve_wf | solve_wf | vm_compute; reflexivity].
Defined.

(** Without the guard the bound would wrap on the empty vector. *)
Example size_sub_wraps_on_empty : SizeT.sub (size []) 1 = 2 ^ 64 - 1.
Proof. reflexivity. Qed.

(** C10.  No read of either operation is past the end of the vector; when the
    size fits an [int] both operations return normally; and the bound
    [nums.size() - 1] of the brute-force loop is evaluated only past the
    length guard, where the unsigned subtraction does not wrap. *)
Theorem accesses_in_bounds nums target :
  size nums < SizeT.modulus ->
  fst (twoSum target nums) <> Fault OutOfBounds /\
  fst (twoSum2 target nums) <> Fault OutOfBounds /\
  (size nums <= Int.max ->
   exists v1 v2,
     twoSum target nums = (Ok v1, nums) /\
     twoSum2 target nums = (Ok v2, nums)) /\
  ((size nums < 2 /\ twoSum target nums = (Ok [], nums)) \/
   (2 <= size nums /\ SizeT.sub (size nums) 1 = size nums - 1)).
Proof.
  intros Hn. split; [apply no_oob_twoSum|]. split; [apply no_oob_twoSum2|].
  split.
  - intros Hsize. exists (find_pair_brute nums target),
      (find_pair_indexed nums target).
    by rewrite twoSum_refines, twoSum2_refines.
  - destruct (Z.lt_ge_cases (size nums) 2) as [Hlt|Hge].
    + left. split; [done|]. by apply length_guard.
    + right. split; [done|]. unfold SizeT.sub. apply Z.mod_small. lia.
Qed.

Lemma accesses_in_bounds_witness :
  fst (twoSum 9 [2; 7; 11; 15]) <> Fault OutOfBounds /\
  fst (twoSum2 9 [2; 7; 11; 15]) <> Fault OutOfBounds /\
  (size [2; 7; 11; 15] <= Int.max ->
   exists v1 v2,
     twoSum 9 [2; 7; 11; 15] = (Ok v1, [2; 7; 11; 15]) /\
     twoSum2 9 [2; 7; 11; 15] = (Ok v2, [2; 7; 11; 15])) /\
  ((size [2; 7; 11; 15] < 2 /\
    twoSum 9 [2; 7; 11; 15] = (Ok [], [2; 7; 11; 15])) \/
   (2 <= size [2; 7; 11; 15] /\
    SizeT.sub (size [2; 7; 11; 15]) 1 = size [2; 7; 11; 15] - 1)).
Proof. apply (accesses_in_bounds [2; 7; 11; 15] 9). reflexivity. Defined.

(** ** Further properties of the pair finder *)

Lemma valid_pair_app nums more target i j :
  valid_pair nums target i j -> valid_pair (nums ++ more) target i j.
Proof.
  intros (Hij & Hj & a & b & Ha & Hb & Hs). split; [done|]. split.
  - unfold size in *. rewrite length_app. lia.
  - exists a, b. split; [|split]; [by apply lookup_app_l_Some.. | done].
Qed.

Lemma valid_pair_app_inv nums more target i j :
  j < size nums ->
  valid_pair (nums ++ more) target i j -> valid_pair nums target i j.
Proof.
  unfold size. intros Hlt (Hij & Hj & a & b & Ha & Hb & Hs).
  split; [done|]. split; [done|]. exists a, b.
  rewrite lookup_app_l in Ha, Hb by lia. done.
Qed.

Lemma first_pair_unique nums target i j i' j' :
  first_pair nums target i j -> first_pair nums target i' j' ->
  i = i' /\ j = j'.
Proof.
  intros [Hv Hmin] [Hv' Hmin'].
  destruct (Hmin _ _ Hv'), (Hmin' _ _ Hv); lia.
Qed.

Lemma indexed_pair_unique nums target i j i' j' :
  indexed_pair nums target i j -> indexed_pair nums target i' j' ->
  i = i' /\ j = j'.
Proof.
  intros [Hv Hmin] [Hv' Hmin'].
  destruct (Hmin _ _ Hv'), (Hmin' _ _ Hv); lia.
Qed.

(** What a run of [twoSum] that returned a pair says about the pair. *)
Lemma twoSum_returned nums target i j s :
  size nums <= Int.max ->
  twoSum target nums = (Ok [i; j], s) -> first_pair nums target i j.
Proof.
  intros Hsize Hrun.
  destruct (twoSum_run nums target Hsize) as (v & Hr & Hpost).
  rewrite Hr in Hrun. injection Hrun as -> _.
  by destruct Hpost as [[[=] _]|(i' & j' & [= <- <-] & Hfirst)].
Qed.

Lemma twoSum2_returned nums target i j s :
  wf_vector nums -> Int.in_range target ->
  twoSum2 target nums = (Ok [i; j], s) -> indexed_pair nums target i j.
Proof.
  intros Hwf Ht Hrun.
  destruct (twoSum2_run nums target Hwf Ht) as (v & Hr & Hpost).
  rewrite Hr in Hrun. injection Hrun as -> _.
  by destruct Hpost as [[[=] _]|(i' & j' & [= <- <-] & Hfirst)].
Qed.

(** X1.  When both operations return a pair on the same input, the two pairs
    are the same, or the pair of [twoSum2] lies strictly inside the pair of
    [twoSum]. *)
Theorem results_same_or_nested nums target i1 j1 i2 j2 s1 s2 :
  wf_vector nums -> Int.in_range target ->
  twoSum target nums = (Ok [i1; j1], s1) ->
  twoSum2 target nums = (Ok [i2; j2], s2) ->
  (i1 = i2 /\ j1 = j2) \/ (i1 < i2 /\ i2 < j2 /\ j2 < j1).
Proof.
  intros Hwf Ht Hrun1 Hrun2.
  apply twoSum_returned in Hrun1 as [Hv1 Hmin1]; [|apply Hwf].
  apply twoSum2_returned in Hrun2 as [Hv2 Hmin2]; [|done..].
  pose proof Hv2 as (Hij2 & _).
  destruct (Hmin1 i2 j2) as [?|[? ?]], (Hmin2 i1 j1) as [?|[? ?]];
    try done; lia.
Qed.

Lemma results_same_or_nested_witness :
  (0 = 1 /\ 3 = 2) \/ (0 < 1 /\ 1 < 2 /\ 2 < 3).
Proof.
  apply (results_same_or_nested [1; 2; 3; 4] 5 0 3 1 2
           [1; 2; 3; 4] [1; 2; 3; 4]);
    [solve_wf | solve_wf | vm_compute; reflexivity | vm_compute; reflexivity].
Defined.

(** X2.  When exactly one pair of positions is a solution, both operations
    return that pair. *)
Theorem unique_solution_is_returned nums target i j :
  wf_vector nums -> Int.in_range target ->
  valid_pair nums target i j ->
  (forall a b, valid_pair nums target a b -> a = i /\ b = j) ->
  twoSum target nums = (Ok [i; j], nums) /\
  twoSum2 target nums = (Ok [i; j], nums).
Proof.
  intros Hwf Ht Hv Huniq.
  destruct (twoSum_run nums target (proj2 Hwf)) as (v1 & Hr1 & Hp1).
  destruct (twoSum2_run nums target Hwf Ht) as (v2 & Hr2 & Hp2).
  rewrite Hr1, Hr2.
  destruct Hp1 as [[_ Hno]|(i1 & j1 & -> & Hv1 & _)];
    [by destruct (Hno i j)|].
  destruct Hp2 as [[_ Hno]|(i2 & j2 & -> & Hv2 & _)];
    [by destruct (Hno i j)|].
  by destruct (Huniq _ _ Hv1) as [-> ->], (Huniq _ _ Hv2) as [-> ->].
Qed.

Lemma unique_solution_is_returned_witness :
  twoSum 6 [3; 3] = (Ok [0; 1], [3; 3]) /\
  twoSum2 6 [3; 3] = (Ok [0; 1], [3; 3]).
Proof.
  apply (unique_solution_is_returned [3; 3] 6 0 1); [solve_wf | solve_wf | |].
  - repeat split; try (cbn; lia). by exists 3, 3.
  - intros a b (Hab & Hb & _). unfold size in Hb. cbn in Hb. lia.
Defined.

(** X3.  Appending elements to the vector either leaves the answer of
    [twoSum] as it was, or replaces it by a pair that starts earlier and
    ends in the appended part. *)
Theorem twoSum_append nums more target i j s :
  size (nums ++ more) <= Int.max ->
  twoSum target nums = (Ok [i; j], s) ->
  exists i' j',
    twoSum target (nums ++ more) = (Ok [i'; j'], nums ++ more) /\
    ((i' = i /\ j' = j) \/ (i' < i /\ size nums <= j')).
Proof.
  intros Hsize Hrun.
  assert (Hsize' : size nums <= Int.max).
  { unfold size in *. rewrite length_app in Hsize. lia. }
  apply twoSum_returned in Hrun as [Hv Hmin]; [|done].
  destruct (twoSum_run (nums ++ more) target Hsize) as (v & Hr & Hpost).
  assert (Hvapp : valid_pair (nums ++ more) target i j)
    by by apply valid_pair_app.
  destruct Hpost as [[_ Hno]|(i' & j' & -> & Hv' & Hmin')];
    [by destruct (Hno i j)|].
  exists i', j'. split; [done|].
  destruct (Z.lt_ge_cases j' (size nums)) as [Hin|Hout].
  - left. apply valid_pair_app_inv in Hv'; [|done].
    destruct (Hmin _ _ Hv'), (Hmin' _ _ Hvapp); lia.
  - right. split; [|done].
    destruct Hv as (_ & ? & _). destruct (Hmin' _ _ Hvapp); lia.
Qed.

Lemma twoSum_append_witness :
  exists i' j',
    twoSum 5 ([1; 2; 3] ++ [4]) = (Ok [i'; j'], [1; 2; 3] ++ [4]) /\
    ((i' = 1 /\ j' = 2) \/ (i' < 1 /\ size [1; 2; 3] <= j')).
Proof.
  apply (twoSum_append [1; 2; 3] [4] 5 1 2 [1; 2; 3]);
    [solve_wf | vm_compute; reflexivity].
Defined.

(** The scan reports a position of the part it was given. *)
Lemma find_pair_indexed_from_range target rest :
  forall mapping i k j,
    find_pair_indexed_from target mapping i rest = [k; j] ->
    i <= j < i + Z.of_nat (length rest).
Proof.
  induction rest as [|v rest IH]; intros mapping i k j Hfind; [done|].
  cbn [find_pair_indexed_from length] in *.
  destruct (mapping !! Int.sub target v).
  - injection Hfind as _ <-. lia.
  - apply IH in Hfind. lia.
Qed.

(** Once the scan has returned, what follows in the vector is not read. *)
Lemma find_pair_indexed_from_app target rest more :
  forall mapping i k j,
    find_pair_indexed_from target mapping i rest = [k; j] ->
    find_pair_indexed_from target mapping i (rest ++ more) = [k; j].
Proof.
  induction rest as [|v rest IH]; intros mapping i k j Hfind; [done|].
  cbn [find_pair_indexed_from app] in *.
  destruct (mapping !! Int.sub target v); [done|]. by apply IH.
Qed.

Lemma find_pair_indexed_from_take target rest :
  forall mapping i k j,
    find_pair_indexed_from target mapping i rest = [k; j] ->
    find_pair_indexed_from target mapping i
      (take (S (Z.to_nat (j - i))) rest) = [k; j].
Proof.
  induction rest as [|v rest IH]; intros mapping i k j Hfind; [done|].
  cbn [find_pair_indexed_from take] in *.
  destruct (mapping !! Int.sub target v); [done|].
  pose proof (find_pair_indexed_from_range _ _ _ _ _ _ Hfind) as Hj.
  apply IH in Hfind.
  by replace (Z.to_nat (j - i)) with (S (Z.to_nat (j - (i + 1)))) by lia.
Qed.

(** X4.  The answer of [twoSum2] is decided by the vector up to the second
    position of the pair: any vector that starts with the same [j + 1]
    elements, longer or shorter beyond them, gets the same answer. *)
Theorem twoSum2_depends_on_prefix nums nums' target i j s :
  size nums <= Int.max -> size nums' <= Int.max ->
  twoSum2 target nums = (Ok [i; j], s) ->
  take (S (Z.to_nat j)) nums' = take (S (Z.to_nat j)) nums ->
  twoSum2 target nums' = (Ok [i; j], nums').
Proof.
  intros Hsize Hsize' Hrun Hprefix.
  rewrite twoSum2_refines in Hrun by done. injection Hrun as Hfind _.
  rewrite twoSum2_refines by done. f_equal. f_equal.
  unfold find_pair_indexed in *.
  destruct (Z.ltb_spec (size nums) 2) as [|Hn]; [done|].
  pose proof (find_pair_indexed_from_range _ _ _ _ _ _ Hfind) as Hj.
  assert (Hj1 : 1 <= j).
  { destruct nums as [|v rest]; [done|].
    cbn [find_pair_indexed_from] in Hfind. rewrite !lookup_empty in Hfind.
    apply find_pair_indexed_from_range in Hfind. lia. }
  assert (Hlen : (S (Z.to_nat j) <= length nums')%nat).
  { apply (f_equal length) in Hprefix. rewrite !length_take in Hprefix. lia. }
  destruct (Z.ltb_spec (size nums') 2) as [Hshort|_];
    [unfold size in Hshort; lia|].
  apply find_pair_indexed_from_take in Hfind.
  rewrite Z.sub_0_r, <- Hprefix in Hfind.
  rewrite <- (take_drop (S (Z.to_nat j)) nums').
  by apply find_pair_indexed_from_app.
Qed.

Lemma twoSum2_depends_on_prefix_witness :
  twoSum2 6 [3; 2; 4; 1; 5] = (Ok [1; 2], [3; 2; 4; 1; 5]).
Proof.
  apply (twoSum2_depends_on_prefix [3; 2; 4] [3; 2; 4; 1; 5] 6 1 2 [3; 2; 4]);
    [solve_wf | solve_wf | vm_compute; reflexivity | reflexivity].
Defined.

(** Values in half the [int] range are [int]s and add without overflow. *)
Lemma half_range_in_range x : half_range x -> Int.in_range x.
Proof. unfold half_range, Int.in_range, Int.min, Int.max. lia. Qed.

Lemma half_range_add a b :
  half_range a -> half_range b -> Int.add a b = a + b.
Proof.
  intros Ha Hb. apply add_exact.
  unfold half_range, Int.in_range, Int.min, Int.max in *. lia.
Qed.

Lemma half_range_elem (nums : list Z) i x :
  Forall half_range nums -> nums !! i = Some x -> half_range x.
Proof.
  intros Hall Hx. rewrite Forall_forall in Hall.
  apply Hall, list_elem_of_lookup. eauto.
Qed.

Lemma exact_solution_iff nums target :
  Forall half_range nums ->
  has_exact_solution nums target <-> has_solution nums target.
Proof.
  intros Hall. split.
  - intros (i & j & a & b & Hne & Hi & Hj & Ha & Hb & Hs).
    exists i, j. split; [done|].
    split; [split; [done | by apply (lookup_bounded nums i a)]|].
    split; [split; [done | by apply (lookup_bounded nums j b)]|].
    exists a, b. do 2 (split; [done|]).
    rewrite half_range_add; [done|by eapply half_range_elem..].
  - intros (i & j & Hne & Hi & Hj & a & b & Ha & Hb & Hs).
    exists i, j, a, b. repeat split; try lia; try done.
    rewrite <- half_range_add; [done|by eapply half_range_elem..].
Qed.

(** X5.  When every element lies in half the [int] range, no sum overflows
    and the operations are exact: each returns a pair exactly when two
    distinct positions sum to the target in the integers, and the values of
    a returned pair sum to the target in the integers. *)
Theorem exact_on_half_range nums target :
  Forall half_range nums -> size nums <= Int.max -> Int.in_range target ->
  exists v1 v2,
    twoSum target nums = (Ok v1, nums) /\
    twoSum2 target nums = (Ok v2, nums) /\
    (v1 <> [] <-> has_exact_solution nums target) /\
    (v2 <> [] <-> has_exact_solution nums target) /\
    forall i j,
      v1 = [i; j] \/ v2 = [i; j] ->
      exists a b,
        nums !! Z.to_nat i = Some a /\ nums !! Z.to_nat j = Some b /\
        a + b = target.
Proof.
  intros Hall Hsize Ht.
  assert (Hwf : wf_vector nums).
  { split; [|done]. eapply Forall_impl; [done|]. apply half_range_in_range. }
  destruct (twoSum_run nums target Hsize) as (v1 & Hr1 & Hp1).
  destruct (twoSum2_run nums target Hwf Ht) as (v2 & Hr2 & Hp2).
  exists v1, v2. do 2 (split; [done|]).
  rewrite exact_solution_iff, has_solution_ordered by done.
  assert (Hexact : forall i j, valid_pair nums target i j ->
    exists a b, nums !! Z.to_nat i = Some a /\ nums !! Z.to_nat j = Some b /\
                a + b = target).
  { intros i j (_ & _ & a & b & Ha & Hb & Hs). exists a, b.
    do 2 (split; [done|]).
    rewrite <- half_range_add; [done|by eapply half_range_elem..]. }
  destruct Hp1 as [[-> Hno1]|(i1 & j1 & -> & Hv1 & _)];
    destruct Hp2 as [[-> Hno2]|(i2 & j2 & -> & Hv2 & _)].
  - split; [|split]; [split; [done|]; intros (i & j & Hv);
      by destruct (Hno1 i j).. |].
    by intros i j [|].
  - by destruct (Hno1 i2 j2).
  - by destruct (Hno2 i1 j1).
  - split; [|split]; [split; [eauto | done].. |].
    intros i j [[= <- <-]|[= <- <-]]; by apply Hexact.
Qed.

Lemma exact_on_half_range_witness :
  exists v1 v2,
    twoSum 9 [2; 7; 11; 15] = (Ok v1, [2; 7; 11; 15]) /\
    twoSum2 9 [2; 7; 11; 15] = (Ok v2, [2; 7; 11; 15]) /\
    (v1 <> [] <-> has_exact_solution [2; 7; 11; 15] 9) /\
    (v2 <> [] <-> has_exact_solution [2; 7; 11; 15] 9) /\
    forall i j,
      v1 = [i; j] \/ v2 = [i; j] ->
      exists a b,
        [2; 7; 11; 15] !! Z.to_nat i = Some a /\
        [2; 7; 11; 15] !! Z.to_nat j = Some b /\
        a + b = 9.
Proof.
  apply (exact_on_half_range [2; 7; 11; 15] 9);
    [repeat (apply List.Forall_cons; [unfold half_range; lia|]);
       apply List.Forall_nil
    | solve_wf | solve_wf].
Defined.

(** Each operation returns normally, and a pair exactly when one exists. *)
Lemma twoSum_nonempty_iff nums target :
  size nums <= Int.max ->
  exists v, twoSum target nums = (Ok v, nums) /\
            (v <> [] <-> has_solution nums target).
Proof.
  intros Hsize. destruct (twoSum_run nums target Hsize) as (v & Hr & Hpost).
  exists v. split; [done|]. rewrite has_solution_ordered.
  destruct Hpost as [[-> Hno]|(i & j & -> & Hv & _)].
  - split; [done|]. intros (i & j & Hv). by destruct (Hno i j).
  - split; [eauto | done].
Qed.

Lemma twoSum2_nonempty_iff nums target :
  wf_vector nums -> Int.in_range target ->
  exists v, twoSum2 target nums = (Ok v, nums) /\
            (v <> [] <-> has_solution nums target).
Proof.
  intros Hwf Ht. destruct (twoSum2_run nums target Hwf Ht) as (v & Hr & Hpost).
  exists v. split; [done|]. rewrite has_solution_ordered.
  destruct Hpost as [[-> Hno]|(i & j & -> & Hv & _)].
  - split; [done|]. intros (i & j & Hv). by destruct (Hno i j).
  - split; [eauto | done].
Qed.

Lemma has_solution_perm nums nums' target :
  Permutation nums nums' ->
  has_solution nums target -> has_solution nums' target.
Proof.
  intros Hperm (i & j & Hne & Hi & Hj & a & b & Ha & Hb & Hs).
  apply Permutation_inj in Hperm as (Hlen & f & Hinj & Hf).
  rewrite Hf in Ha, Hb.
  exists (Z.of_nat (f (Z.to_nat i))), (Z.of_nat (f (Z.to_nat j))).
  split; [|split; [|split]].
  - intros Heq. apply Nat2Z.inj, Hinj in Heq. lia.
  - apply lookup_lt_Some in Ha. unfold size. lia.
  - apply lookup_lt_Some in Hb. unfold size. lia.
  - exists a, b. by rewrite !Nat2Z.id.
Qed.

Lemma wf_vector_perm nums nums' :
  Permutation nums nums' -> wf_vector nums -> wf_vector nums'.
Proof.
  intros Hperm [Hall Hsize]. split.
  - by rewrite <- Hperm.
  - unfold size in *. by rewrite <- Hperm.
Qed.

(** X6.  Whether an operation finds a pair does not depend on the order of
    the elements: on a permutation of the vector each operation returns a
    pair exactly when it does on the vector itself. *)
Theorem existence_is_order_independent nums nums' target :
  wf_vector nums -> Int.in_range target -> Permutation nums nums' ->
  exists v1 v1' v2 v2',
    twoSum target nums = (Ok v1, nums) /\
    twoSum target nums' = (Ok v1', nums') /\
    twoSum2 target nums = (Ok v2, nums) /\
    twoSum2 target nums' = (Ok v2', nums') /\
    (v1 <> [] <-> v1' <> []) /\ (v2 <> [] <-> v2' <> []).
Proof.
  intros Hwf Ht Hperm.
  pose proof (wf_vector_perm _ _ Hperm Hwf) as Hwf'.
  destruct (twoSum_nonempty_iff nums target (proj2 Hwf)) as (v1 & Hr1 & H1).
  destruct (twoSum_nonempty_iff nums' target (proj2 Hwf')) as (v1' & Hr1' & H1').
  destruct (twoSum2_nonempty_iff nums target Hwf Ht) as (v2 & Hr2 & H2).
  destruct (twoSum2_nonempty_iff nums' target Hwf' Ht) as (v2' & Hr2' & H2').
  exists v1, v1', v2, v2'. do 4 (split; [done|]).
  assert (Hsol : has_solution nums target <-> has_solution nums' target).
  { split; apply has_solution_perm; [done | by symmetry]. }
  rewrite H1, H1', H2, H2'. done.
Qed.

Lemma existence_is_order_independent_witness :
  exists v1 v1' v2 v2',
    twoSum 6 [3; 2; 4] = (Ok v1, [3; 2; 4]) /\
    twoSum 6 [2; 3; 4] = (Ok v1', [2; 3; 4]) /\
    twoSum2 6 [3; 2; 4] = (Ok v2, [3; 2; 4]) /\
    twoSum2 6 [2; 3; 4] = (Ok v2', [2; 3; 4]) /\
    (v1 <> [] <-> v1' <> []) /\ (v2 <> [] <-> v2' <> []).
Proof.
  apply (existence_is_order_independent [3; 2; 4] [2; 3; 4] 6);
    [solve_wf | solve_wf | apply perm_swap].
Defined.


(** ** [twoSum2] as a search by columns *)

Lemma find_map_compose {A B : Type} (g : A -> B) (q : B -> bool) (l : list A) :
  find q (map g l) = g <$> find (fun x => q (g x)) l.
Proof.
  induction l as [|x l IH]; cbn; [done|]. by destruct (q (g x)).
Qed.

(** [find] over a range reports its first hit. *)
Lemma find_seq_first (p : nat -> bool) len :
  forall s,
    match find p (seq s len) with
    | Some i =>
        (s <= i < s + len)%nat /\ p i = true /\
        forall a, (s <= a < i)%nat -> p a = false
    | None => forall a, (s <= a < s + len)%nat -> p a = false
    end.
Proof.
  induction len as [|len IH]; intros s; cbn [seq find]; [intros a; lia|].
  destruct (p s) eqn:Hs.
  - split; [lia|]. split; [done|]. intros a. lia.
  - specialize (IH (S s)). destruct (find p (seq (S s) len)) as [i|].
    + destruct IH as (Hi & Hp & Hmin). split; [lia|]. split; [done|].
      intros a Ha. destruct (Nat.eq_dec a s) as [->|]; [done|].
      apply Hmin. lia.
    + intros a Ha. destruct (Nat.eq_dec a s) as [->|]; [done|].
      apply IH. lia.
Qed.

Lemma column_major_pairs_S n :
  column_major_pairs (S n) = column_major_pairs n ++ pairs_in_column n.
Proof.
  unfold column_major_pairs. rewrite seq_S, flat_map_app. cbn [flat_map].
  by rewrite app_nil_r.
Qed.

(** [find] over the enumeration by columns reports the hit with the
    smallest second component, then the smallest first component. *)
Lemma find_column_major_first (p : nat * nat -> bool) n :
  match find p (column_major_pairs n) with
  | Some (i, j) =>
      (i < j < n)%nat /\ p (i, j) = true /\
      forall a b, (a < b < n)%nat -> p (a, b) = true ->
                  (j < b \/ (j = b /\ i <= a))%nat
  | None => forall a b, (a < b < n)%nat -> p (a, b) = false
  end.
Proof.
  induction n as [|n IH]; [intros a b; lia|].
  rewrite column_major_pairs_S, find_app_first.
  destruct (find p (column_major_pairs n)) as [[i j]|].
  - destruct IH as (Hij & Hp & Hmin). split; [lia|]. split; [done|].
    intros a b Hab Hpab. destruct (Nat.eq_dec b n) as [->|]; [lia|].
    apply Hmin; [lia | done].
  - unfold pairs_in_column. rewrite find_map_compose.
    pose proof (find_seq_first (fun i => p (i, n)) n 0%nat) as Hcol.
    destruct (find _ (seq 0 n)) as [i|]; cbn.
    + destruct Hcol as (Hi & Hp & Hmin). split; [lia|]. split; [done|].
      intros a b Hab Hpab. destruct (Nat.eq_dec b n) as [->|].
      * right. split; [done|].
        destruct (Nat.le_gt_cases i a) as [|Hlt]; [done|].
        rewrite Hmin in Hpab; [done | lia].
      * rewrite IH in Hpab; [done | lia].
    + intros a b Hab. destruct (Nat.eq_dec b n) as [->|].
      * apply Hcol. lia.
      * apply IH. lia.
Qed.

Lemma valid_pair_pair_sums nums target (a b : nat) :
  valid_pair nums target (Z.of_nat a) (Z.of_nat b) <->
  (a < b < length nums)%nat /\ pair_sums nums target (a, b) = true.
Proof.
  unfold valid_pair, sums_to, pair_sums, size. cbn [fst snd].
  rewrite !Nat2Z.id. split.
  - intros (Hab & Hb & x & y & -> & -> & Hs). split; [lia|].
    by apply Z.eqb_eq.
  - intros [Hab Hp]. split; [lia|]. split; [lia|].
    destruct (nums !! a) as [x|], (nums !! b) as [y|]; try done.
    exists x, y. do 2 (split; [done|]). by apply Z.eqb_eq.
Qed.

(** X8.  [twoSum2] returns what the brute-force search returns with its two
    loops interchanged: the first pair, in the enumeration of all index pairs
    by columns, whose values sum to the target. *)
Theorem twoSum2_is_search_by_columns nums target :
  wf_vector nums -> Int.in_range target ->
  twoSum2 target nums = (Ok (find_pair_by_columns nums target), nums).
Proof.
  intros Hwf Ht.
  destruct (twoSum2_run nums target Hwf Ht) as (v & -> & Hpost).
  f_equal. f_equal. unfold find_pair_by_columns.
  destruct (Z.ltb_spec (size nums) 2) as [Hshort|_].
  { destruct Hpost as [[-> _]|(i & j & _ & (Hij & Hj & _) & _)]; [done | lia]. }
  pose proof (find_column_major_first (pair_sums nums target) (length nums))
    as Hfind.
  destruct (find _ (column_major_pairs _)) as [[a b]|]; cbn [indices].
  - destruct Hfind as (Hab & Hp & Hmin).
    assert (Hcol : indexed_pair nums target (Z.of_nat a) (Z.of_nat b)).
    { split; [by apply valid_pair_pair_sums|].
      intros i j Hv. pose proof Hv as (Hij & _).
      rewrite <- (Z2Nat.id i), <- (Z2Nat.id j) in Hv by lia.
      apply valid_pair_pair_sums in Hv as [Hlt Hpij].
      destruct (Hmin _ _ Hlt Hpij); lia. }
    destruct Hpost as [[_ Hno]|(i & j & -> & Hidx)].
    + destruct (Hno _ _ (proj1 Hcol)).
    + by destruct (indexed_pair_unique _ _ _ _ _ _ Hidx Hcol) as [-> ->].
  - destruct Hpost as [[-> _]|(i & j & _ & Hv & _)]; [done|].
    pose proof Hv as (Hij & _).
    rewrite <- (Z2Nat.id i), <- (Z2Nat.id j) in Hv by lia.
    apply valid_pair_pair_sums in Hv as [Hlt Hpij].
    by rewrite Hfind in Hpij.
Qed.

Lemma twoSum2_is_search_by_columns_witness :
  twoSum2 5 [1; 2; 3; 4] =
    (Ok (find_pair_by_columns [1; 2; 3; 4] 5), [1; 2; 3; 4]).
Proof. apply (twoSum2_is_search_by_columns [1; 2; 3; 4] 5); solve_wf. Defined.

(** The enumeration by columns on a vector of three elements. *)
Example column_major_pairs_3 :
  column_major_pairs 3 = [(0, 1); (0, 2); (1, 2)]%nat.
Proof. reflexivity. Qed.

(** ** The query on the customer table *)


(** X9.  The condition of the query is never unknown: it is false on the
    rows whose [referee_id] is 2 and true on all others.  On a row whose
    [referee_id] is NULL the comparison [referee_id != 2] alone is unknown;
    the row is kept because of [referee_id IS NULL]. *)
Theorem where_clause_is_two_valued (c : Sql.customer) :
  Sql.where_clause c <> Sql.Unknown3 /\
  (Sql.where_clause c = Sql.False3 <-> Sql.referee_id c = Some 2) /\
  Sql.holds (Sql.where_clause c) = negb (Sql.referred_by_2 c) /\
  (if Sql.referee_id c is None
   then Sql.neq3 (Sql.referee_id c) 2 = Sql.Unknown3 /\
        Sql.where_clause c = Sql.True3
   else Sql.where_clause c = Sql.neq3 (Sql.referee_id c) 2).
Proof.
  unfold Sql.where_clause, Sql.referred_by_2.
  destruct (Sql.referee_id c) as [v|]; cbn; [|done].
  destruct (Z.eqb_spec v 2) as [->|Hne]; cbn; [done|].
  repeat split; try done. intros [= ->]. done.
Qed.

